(** * A consistent hash ring (consistenthash.go)

    Shallow embedding of the package [consistenthash]: the ring state
    (a map from position to node identifier and a sorted slice of
    positions), its operations [New], [AddNode], [RemoveNode] and
    [GetNode], the hash [hashKey], and the properties of the ring.

    Conventions.
    - [uint32] values are numbers of type [N]; every position the code
      produces is a result of [hashKey] and lies below [2^32].
    - A Go [string] is a sequence of bytes, as is a Rocq [string];
      [[]byte(key)] is the list of its bytes.
    - Slice indices and lengths ([int] in Go) are natural numbers.
    - The methods run in a state monad over the ring with a panic outcome
      ([None]), the run-time panic of an index out of range.  The mutex
      [mu] is not part of the sequential state. *)

From Stdlib Require Import NArith Ascii String.
From stdpp Require Import gmap strings list sorting.
From Equations Require Import Equations.

Local Open Scope N_scope.

(** ** CRC-32 as computed by hash/crc32 *)

Module crc32.

(** IEEE is by far and away the most common CRC-32 polynomial
    (reversed representation). *)
Definition IEEE : N := 0xedb88320.

(** The body of the inner loop of [simplePopulateTable]:
    [if crc&1 == 1 { crc = (crc >> 1) ^ poly } else { crc >>= 1 }]. *)
Definition populate_step (poly crc : N) : N :=
  if N.land crc 1 =? 1 then N.lxor (N.shiftr crc 1) poly
  else N.shiftr crc 1.

(** [simplePopulateTable]: entry [i] of the 256 entry table is [i]
    pushed eight times through [populate_step]. *)
Definition simplePopulateTable (poly : N) : list N :=
  map (λ i, Nat.iter 8 (populate_step poly) (N.of_nat i)) (seq 0 256).

Definition IEEETable : list N := Eval vm_compute in simplePopulateTable IEEE.

(** [tab[i]] for a [Table] ([[256]uint32]) indexed by a byte. *)
Definition at_byte (tab : list N) (i : N) : N := nth (N.to_nat i) tab 0.

(** [^crc] on [uint32]. *)
Definition compl32 (crc : N) : N := N.lxor crc 0xffffffff.

(** [simpleUpdate]:
    [crc = ^crc; for _, v := range p { crc = tab[byte(crc)^v] ^ (crc >> 8) }; return ^crc]. *)
Definition simpleUpdate (crc : N) (tab : list N) (p : list N) : N :=
  compl32
    (fold_left
       (λ crc v, N.lxor (at_byte tab (N.lxor (N.land crc 0xff) v)) (N.shiftr crc 8))
       p (compl32 crc)).

(** Modelled from the spec: package hash/crc32 is the Go standard
    library and is not under src/.  [ChecksumIEEE] returns the CRC-32
    checksum of data using the IEEE polynomial; it is modelled by the
    package's table driven reference algorithm ([simpleMakeTable],
    [simpleUpdate]), which its accelerated variants agree with. *)
Definition ChecksumIEEE (data : list N) : N := simpleUpdate 0 IEEETable data.

(** *** The checksum as the spec words it: CRC-32 with the IEEE
    polynomial, bit by bit.

    The register starts with all 32 bits set.  The bits of the message
    enter it one at a time, the least significant bit of each byte
    first: the register is shifted right by one, and the polynomial is
    added (xor) when the bit shifted out differs from the message bit.
    The checksum is the complement of the final register. *)
Definition shift_in (reg : N) (bit : bool) : N :=
  if xorb (N.odd reg) bit then N.lxor (N.shiftr reg 1) IEEE
  else N.shiftr reg 1.

Definition bits_of_byte (b : N) : list bool :=
  map (λ i, N.testbit b (N.of_nat i)) (seq 0 8).

Definition crc32_ieee_spec (data : list N) : N :=
  N.lxor (fold_left shift_in (concat (map bits_of_byte data)) 0xffffffff)
         0xffffffff.

(** One turn of the shift register with nothing fed in; both
    [populate_step IEEE] and [shift_in] are instances of it. *)
Definition turn (x : N) : N :=
  N.lxor (N.shiftr x 1) (if N.odd x then IEEE else 0).

End crc32.

(** [[]byte(key)]: the bytes of a string. *)
Definition bytes (key : string) : list N :=
  map N_of_ascii (list_ascii_of_string key).

(** ** The ring *)

(** [type ConsistentHash struct { mu; nodes map[uint32]string; hashRing []uint32 }] *)
Record ConsistentHash : Type := mkConsistentHash {
  nodes : gmap N string;   (* Hash of the node -> Node ID *)
  hashRing : list N        (* Sorted list of hashes on the ring *)
}.

(** *** The monad of the methods: state and panic *)

Definition M (A : Type) : Type := ConsistentHash → option (A * ConsistentHash).

Global Instance M_ret : MRet M := λ A a h, Some (a, h).
Global Instance M_bind : MBind M := λ A B f c h,
  match c h with
  | Some (a, h') => f a h'
  | None => None
  end.

Definition panic {A} : M A := λ _, None.
Definition get_nodes : M (gmap N string) := λ h, Some (nodes h, h).
Definition get_hashRing : M (list N) := λ h, Some (hashRing h, h).
Definition set_nodes (m : gmap N string) : M unit :=
  λ h, Some ((), mkConsistentHash m (hashRing h)).
Definition set_hashRing (r : list N) : M unit :=
  λ h, Some ((), mkConsistentHash (nodes h) r).

(** [s[i]]: panics when [i] is out of range. *)
Definition index (s : list N) (i : nat) : M N :=
  match s !! i with
  | Some v => mret v
  | None => panic
  end.

(** *** sort.Slice and sort.Search *)

Module sort.

(** [sort.Slice(x, less)] sorts the slice [x] given the provided less
    function.  The package's algorithm is an in-place pattern-defeating
    quicksort; here the sorted slice is built by insertion, and
    [Slice_unique] shows that for [<] on numbers the result is the only
    one a sort can give. *)
Fixpoint insert (less : N → N → bool) (x : N) (l : list N) : list N :=
  match l with
  | [] => [x]
  | y :: l' => if less x y then x :: y :: l' else y :: insert less x l'
  end.

Definition Slice (x : list N) (less : N → N → bool) : list N :=
  foldr (insert less) [] x.

(** [sort.Search(n, f)]:
<<
    i, j := 0, n
    for i < j {
      h := int(uint(i+j) >> 1)
      if !f(h) { i = h + 1 } else { j = h }
    }
    return i
>>
    The predicate is a closure that may read the ring and may panic. *)
Equations? Search_loop (f : nat → M bool) (i j : nat) (s : ConsistentHash)
  : option (nat * ConsistentHash) by wf (j - i)%nat lt :=
  Search_loop f i j s with lt_dec i j := {
    | left _ with f ((i + j) / 2)%nat s := {
        | Some (false, s') => Search_loop f ((i + j) / 2 + 1)%nat j s'
        | Some (true, s') => Search_loop f i ((i + j) / 2)%nat s'
        | None => None }
    | right _ => Some (i, s) }.
Proof.
  all: change (Nat.divmod (i + j) 1 0 1).1 with ((i + j) / 2)%nat;
    pose proof (Nat.div_mod_eq (i + j) 2);
    pose proof (Nat.mod_upper_bound (i + j) 2); lia.
Qed.

Definition Search (n : nat) (f : nat → M bool) : M nat := Search_loop f 0 n.

End sort.

(** *** The methods *)

(** [hashKey] generates a consistent hash for a given key. *)
Definition hashKey (key : string) : N := crc32.ChecksumIEEE (bytes key).

Definition addNode (nodeID : string) : M unit :=
  let hash := hashKey nodeID in
  m ← get_nodes;
  match m !! hash with
  | Some _ => mret ()  (* Node already exists *)
  | None =>
      set_nodes (<[hash := nodeID]> m);;
      r ← get_hashRing;
      set_hashRing (r ++ [hash]);;
      r ← get_hashRing;
      set_hashRing (sort.Slice r N.ltb)
  end.

(** [AddNode] adds a new node to the consistent hash ring. *)
Definition AddNode (nodeID : string) : M unit := addNode nodeID.

(** [New] creates a new ConsistentHash instance with the given nodes. *)
Fixpoint range_addNode (nodeIDs : list string) : M unit :=
  match nodeIDs with
  | [] => mret ()
  | nodeID :: rest => addNode nodeID;; range_addNode rest
  end.

Definition New (nodeIDs : list string) : option ConsistentHash :=
  match range_addNode nodeIDs (mkConsistentHash ∅ []) with
  | Some (_, h) => Some h
  | None => None
  end.

(** The loop of [RemoveNode] over [i, v := range h.hashRing], at index
    [i] with [rest] still to visit:
    [if v == hash { h.hashRing = append(h.hashRing[:i], h.hashRing[i+1:]...); break }]. *)
Fixpoint range_remove (hash : N) (i : nat) (rest : list N) : M unit :=
  match rest with
  | [] => mret ()
  | v :: rest' =>
      if v =? hash then
        r ← get_hashRing;
        set_hashRing (take i r ++ drop (S i) r)
      else range_remove hash (S i) rest'
  end.

(** [RemoveNode] removes a node from the consistent hash ring. *)
Definition RemoveNode (nodeID : string) : M unit :=
  let hash := hashKey nodeID in
  m ← get_nodes;
  match m !! hash with
  | None => mret ()  (* Node does not exist *)
  | Some _ =>
      set_nodes (delete hash m);;
      r ← get_hashRing;
      range_remove hash 0 r
  end.

(** [GetNode] returns the ID of the appropriate node for a given key. *)
Definition GetNode (key : string) : M string :=
  r ← get_hashRing;
  if (length r =? 0)%nat then mret ""%string  (* No nodes available *)
  else
    let hash := hashKey key in
    (* Find the first node clockwise from the hash. *)
    idx ← sort.Search (length r)
            (λ i, r ← get_hashRing; v ← index r i; mret (hash <=? v));
    r ← get_hashRing;
    let idx := if (idx =? length r)%nat then 0%nat else idx in
    v ← index r idx;
    m ← get_nodes;
    mret (default ""%string (m !! v)).

(** ** The vocabulary of the properties *)

(** What the loop of [RemoveNode] leaves of a slice: the first element
    equal to [x] is gone, the others stay in place. *)
Fixpoint remove_first (x : N) (l : list N) : list N :=
  match l with
  | [] => []
  | y :: l' => if y =? x then l' else y :: remove_first x l'
  end.

(** The invariant of the ring: the positions are strictly ascending, and
    they are exactly the keys of the map. *)
Record ring_inv (h : ConsistentHash) : Prop := {
  ring_sorted : StronglySorted N.lt (hashRing h);
  ring_keys : list_to_set (hashRing h) =@{gset N} dom (nodes h)
}.

(** The rings a program can hold: made by [New], then changed by the
    exported methods. *)
Inductive reachable : ConsistentHash → Prop :=
  | reachable_New nodeIDs h :
      New nodeIDs = Some h → reachable h
  | reachable_AddNode nodeID h h' :
      reachable h → AddNode nodeID h = Some ((), h') → reachable h'
  | reachable_RemoveNode nodeID h h' :
      reachable h → RemoveNode nodeID h = Some ((), h') → reachable h'
  | reachable_GetNode key h v h' :
      reachable h → GetNode key h = Some (v, h') → reachable h'.

(** [p] is the successor of the hash [x] on the ring: the smallest
    position that is at least [x], or, when every position is below [x],
    the smallest position of all. *)
Definition successor (ring : list N) (x p : N) : Prop :=
  p ∈ ring ∧
  ((x ≤ p ∧ ∀ q, q ∈ ring → x ≤ q → p ≤ q) ∨
   ((∀ q, q ∈ ring → q < x) ∧ ∀ q, q ∈ ring → p ≤ q)).

(** [q] is the clockwise neighbour of the position [b]: the smallest
    position above [b], or, when there is none, the smallest of the other
    positions. *)
Definition clockwise_next (ring : list N) (b q : N) : Prop :=
  q ∈ ring ∧ q ≠ b ∧
  ((b < q ∧ ∀ r, r ∈ ring → b < r → q ≤ r) ∨
   ((∀ r, r ∈ ring → r ≤ b) ∧ ∀ r, r ∈ ring → r ≠ b → q ≤ r)).

(** The first identifier of a list that hashes to [p]. *)
Definition first_with_hash (p : N) (nodeIDs : list string) : option string :=
  head (filter (λ nodeID, hashKey nodeID = p) nodeIDs).

(** The ring of the end-to-end scenario, [New ["node-a"; "node-b"; "node-c"]],
    and a ring whose only node is ["plumless"], an identifier with the
    same checksum as ["buckeroo"]. *)
Definition ring_abc : ConsistentHash :=
  mkConsistentHash
    (<[2023312811 := "node-a"%string]>
      (<[3784317969 := "node-b"%string]>
        (<[2526489735 := "node-c"%string]> ∅)))
    [2023312811; 2526489735; 3784317969].

Definition ring_ac : ConsistentHash :=
  mkConsistentHash
    (<[2023312811 := "node-a"%string]> (<[2526489735 := "node-c"%string]> ∅))
    [2023312811; 2526489735].

Definition ring_plumless : ConsistentHash :=
  mkConsistentHash (<[1306201125 := "plumless"%string]> ∅) [1306201125].

(** Running a method for its effect on the ring. *)
Definition exec {A} (c : M A) (h : ConsistentHash) : option ConsistentHash :=
  snd <$> c h.

(** Every entry of the map sits at the hash of its identifier. *)
Definition nodes_hashed (h : ConsistentHash) : Prop :=
  map_Forall (λ p nodeID, hashKey nodeID = p) (nodes h).

(** ** Facts about the checksum *)

Module crc32_facts.
Import crc32.

Lemma populate_step_turn x : populate_step IEEE x = turn x.
Proof.
  unfold populate_step, turn.
  replace (N.land x 1 =? 1) with (N.odd x).
  - destruct (N.odd x); [done | by rewrite N.lxor_0_r].
  - destruct x as [|[q|q|]]; reflexivity.
Qed.

Lemma odd_lxor a b : N.odd (N.lxor a b) = xorb (N.odd a) (N.odd b).
Proof. by rewrite <- !N.bit0_odd, N.lxor_spec. Qed.

Lemma shift_in_turn reg bit : shift_in reg bit = turn (N.lxor reg (N.b2n bit)).
Proof.
  unfold shift_in, turn. rewrite odd_lxor, N.shiftr_lxor.
  replace (N.odd (N.b2n bit)) with bit by (by destruct bit).
  replace (N.shiftr (N.b2n bit) 1) with 0 by (by destruct bit).
  rewrite N.lxor_0_r.
  destruct (xorb (N.odd reg) bit); [done | by rewrite N.lxor_0_r].
Qed.

(** The register is linear over xor. *)
Lemma turn_lxor a b : turn (N.lxor a b) = N.lxor (turn a) (turn b).
Proof.
  unfold turn. generalize IEEE. intros P.
  rewrite odd_lxor, N.shiftr_lxor.
  apply N.bits_inj. intros n. rewrite !N.lxor_spec.
  destruct (N.odd a), (N.odd b); cbn [xorb];
    rewrite ?N.lxor_spec, ?N.bits_0;
    repeat match goal with |- context [N.testbit ?u n] =>
      destruct (N.testbit u n) end; reflexivity.
Qed.

Lemma turns_lxor k a b :
  Nat.iter k turn (N.lxor a b) = N.lxor (Nat.iter k turn a) (Nat.iter k turn b).
Proof. induction k as [|k IH]; simpl; [done|]. by rewrite IH, turn_lxor. Qed.

Lemma turn_shiftl y : turn (N.shiftl y 1) = y.
Proof.
  unfold turn. rewrite <- N.bit0_odd, N.shiftl_spec_low by lia.
  rewrite N.lxor_0_r, N.shiftr_shiftl_l by lia. apply N.shiftl_0_r.
Qed.

Lemma turns_shiftl k y : Nat.iter k turn (N.shiftl y (N.of_nat k)) = y.
Proof.
  induction k as [|k IH]; [apply N.shiftl_0_r|].
  rewrite Nat.iter_succ_r.
  replace (N.of_nat (S k)) with (N.of_nat k + 1) by lia.
  rewrite <- N.shiftl_shiftl, turn_shiftl. exact IH.
Qed.

(** Bits that are all zero from position [k] on bound a number. *)
Lemma high_bits_bound x k :
  (∀ n, k ≤ n → N.testbit x n = false) ↔ x < 2 ^ k.
Proof.
  split.
  - intros Hx. replace x with (x mod 2 ^ k).
    + apply N.mod_lt, N.pow_nonzero. lia.
    + apply N.bits_inj. intros n. destruct (decide (n < k)) as [Hn|Hn].
      * by apply N.mod_pow2_bits_low.
      * rewrite N.mod_pow2_bits_high, Hx by lia. done.
  - intros Hx n Hn. rewrite <- (N.mod_small x (2 ^ k)) by done.
    by apply N.mod_pow2_bits_high.
Qed.

Lemma lxor_bound k a b : a < 2 ^ k → b < 2 ^ k → N.lxor a b < 2 ^ k.
Proof.
  rewrite <- !high_bits_bound. intros Ha Hb n Hn.
  by rewrite N.lxor_spec, Ha, Hb.
Qed.

Lemma shiftr_bound k j a : a < 2 ^ (k + j) → N.shiftr a j < 2 ^ k.
Proof.
  rewrite <- !high_bits_bound. intros Ha n Hn.
  rewrite N.shiftr_spec'. apply Ha. lia.
Qed.

Lemma turn_bound x : x < 2 ^ 32 → turn x < 2 ^ 32.
Proof.
  intros Hx. unfold turn. apply lxor_bound.
  - eapply N.lt_trans; [apply (shiftr_bound 31 1); exact Hx | done].
  - destruct (N.odd x); done.
Qed.

Lemma turns_bound k x : x < 2 ^ 32 → Nat.iter k turn x < 2 ^ 32.
Proof. intros Hx. induction k; simpl; [done | by apply turn_bound]. Qed.

(** A number splits into its low eight bits and the rest. *)
Lemma split_low_byte x :
  x = N.lxor (N.land x 0xff) (N.shiftl (N.shiftr x 8) 8).
Proof.
  apply N.bits_inj. intros n.
  rewrite N.lxor_spec, N.land_spec.
  destruct (decide (n < 8)) as [Hn|Hn].
  - rewrite N.shiftl_spec_low by done.
    change 0xff with (N.ones 8). rewrite N.ones_spec_low by done.
    by destruct (N.testbit x n).
  - rewrite N.shiftl_spec_high' by lia. rewrite N.shiftr_spec'.
    change 0xff with (N.ones 8). rewrite N.ones_spec_high by lia.
    replace (n - 8 + 8) with n by lia.
    by destruct (N.testbit x n).
Qed.

Lemma land_byte_bound x : N.land x 0xff < 2 ^ 8.
Proof.
  change 0xff with (N.ones 8). rewrite N.land_ones.
  apply N.mod_lt. done.
Qed.

Lemma IEEETable_eq : IEEETable = simplePopulateTable IEEE.
Proof. vm_compute. reflexivity. Qed.

(** Entry [i] of the table is [i] after eight turns. *)
Lemma at_byte_IEEETable i : i < 2 ^ 8 → at_byte IEEETable i = Nat.iter 8 turn i.
Proof.
  intros Hi. rewrite IEEETable_eq. unfold at_byte, simplePopulateTable.
  assert (Hn : (N.to_nat i < 256)%nat) by lia.
  rewrite (nth_indep _ 0 (Nat.iter 8 (populate_step IEEE) (N.of_nat 0)))
    by (by rewrite length_map, length_seq).
  rewrite (map_nth (λ i, Nat.iter 8 (populate_step IEEE) (N.of_nat i))).
  rewrite seq_nth by done. rewrite Nat.add_0_l, N2Nat.id.
  generalize 8%nat. intros k.
  induction k as [|k IH]; simpl; [done|]. by rewrite IH, populate_step_turn.
Qed.

(** A step of [simpleUpdate] is eight turns of the register on the
    byte xored in. *)
Lemma update_step crc v :
  v < 2 ^ 8 →
  N.lxor (at_byte IEEETable (N.lxor (N.land crc 0xff) v)) (N.shiftr crc 8)
  = Nat.iter 8 turn (N.lxor crc v).
Proof.
  intros Hv.
  rewrite at_byte_IEEETable by (apply lxor_bound; [apply land_byte_bound | done]).
  transitivity (Nat.iter 8 turn
    (N.lxor (N.lxor (N.land crc 0xff) v) (N.shiftl (N.shiftr crc 8) 8))).
  - rewrite (turns_lxor 8 (N.lxor _ v) (N.shiftl _ 8)). f_equal.
    symmetry. apply (turns_shiftl 8).
  - f_equal.
    rewrite N.lxor_assoc, (N.lxor_comm v), <- N.lxor_assoc.
    by rewrite <- split_low_byte.
Qed.

(** Feeding the bits of a byte one by one is eight turns as well. *)
Lemma shift_in_bits k : ∀ b reg,
  b < 2 ^ N.of_nat k →
  fold_left shift_in (map (λ i, N.testbit b (N.of_nat i)) (seq 0 k)) reg
  = Nat.iter k turn (N.lxor reg b).
Proof.
  induction k as [|k IH]; intros b reg Hb.
  - simpl in *. assert (b = 0) as -> by lia. by rewrite N.lxor_0_r.
  - rewrite <- cons_seq, <- seq_shift. cbn [map fold_left]. rewrite map_map.
    rewrite (map_ext _ (λ i, N.testbit (N.shiftr b 1) (N.of_nat i))); last first.
    { intros i. rewrite N.shiftr_spec'. f_equal. lia. }
    rewrite IH; last first.
    { apply shiftr_bound. by replace (N.of_nat k + 1) with (N.of_nat (S k)) by lia. }
    rewrite Nat.iter_succ_r. f_equal.
    rewrite shift_in_turn.
    rewrite <- (turn_shiftl (N.shiftr b 1)) at 1.
    rewrite <- turn_lxor, N.lxor_assoc. do 2 f_equal.
    apply N.bits_inj. intros n. rewrite N.lxor_spec.
    change (N.of_nat 0) with 0.
    destruct (decide (n = 0)) as [->|Hn].
    + rewrite N.shiftl_spec_low, N.b2n_bit0 by lia.
      by destruct (N.testbit b 0).
    + rewrite N.shiftl_spec_high', N.shiftr_spec' by lia.
      replace (n - 1 + 1) with n by lia.
      replace (N.testbit (N.b2n (N.testbit b 0)) n) with false; [done|].
      destruct (N.testbit b 0), n as [|[q|q|]]; done.
Qed.

Lemma byte_bound (a : ascii) : N_of_ascii a < 2 ^ 8.
Proof. exact (N_ascii_bounded a). Qed.

Lemma bytes_bound key : Forall (λ v, v < 2 ^ 8) (bytes key).
Proof.
  unfold bytes. apply Forall_forall. intros v Hv.
  apply list_elem_of_In, in_map_iff in Hv as (a & <- & _). apply byte_bound.
Qed.

(** The loop of [simpleUpdate] and the bit by bit register agree on
    every prefix of the message. *)
Lemma update_loop_bits p : ∀ crc,
  Forall (λ v, v < 2 ^ 8) p →
  fold_left
    (λ crc v, N.lxor (at_byte IEEETable (N.lxor (N.land crc 0xff) v)) (N.shiftr crc 8))
    p crc
  = fold_left shift_in (concat (map bits_of_byte p)) crc.
Proof.
  induction p as [|v p IH]; intros crc Hp; [done|].
  inversion_clear Hp as [|? ? Hv Hp'].
  cbn [map concat fold_left]. rewrite fold_left_app, IH by done. f_equal.
  rewrite update_step by done. symmetry. by apply (shift_in_bits 8).
Qed.

Lemma update_loop_bound p : ∀ crc,
  Forall (λ v, v < 2 ^ 8) p → crc < 2 ^ 32 →
  fold_left
    (λ crc v, N.lxor (at_byte IEEETable (N.lxor (N.land crc 0xff) v)) (N.shiftr crc 8))
    p crc < 2 ^ 32.
Proof.
  induction p as [|v p IH]; intros crc Hp Hcrc; [done|].
  inversion_clear Hp as [|? ? Hv Hp'].
  cbn [fold_left]. apply IH; [done|]. rewrite update_step by done.
  apply turns_bound, lxor_bound; [done|].
  eapply N.lt_trans; [exact Hv | done].
Qed.

Lemma ChecksumIEEE_spec p :
  Forall (λ v, v < 2 ^ 8) p → ChecksumIEEE p = crc32_ieee_spec p.
Proof.
  intros Hp. unfold ChecksumIEEE, simpleUpdate, crc32_ieee_spec, compl32.
  by rewrite update_loop_bits.
Qed.

Lemma ChecksumIEEE_uint32 p :
  Forall (λ v, v < 2 ^ 8) p → ChecksumIEEE p < 2 ^ 32.
Proof.
  intros Hp. unfold ChecksumIEEE, simpleUpdate, compl32.
  apply lxor_bound; [|done]. by apply update_loop_bound.
Qed.

End crc32_facts.

(** ** Running the methods *)

Section run.

Lemma addNode_run nodeID h :
  addNode nodeID h = Some ((),
    match nodes h !! hashKey nodeID with
    | Some _ => h
    | None => mkConsistentHash (<[hashKey nodeID := nodeID]> (nodes h))
                (sort.Slice (hashRing h ++ [hashKey nodeID]) N.ltb)
    end).
Proof.
  unfold addNode, mbind, M_bind, get_nodes. 
  destruct (nodes h !! hashKey nodeID); reflexivity.
Qed.

Lemma range_remove_run hash rest : ∀ pre h,
  hashRing h = pre ++ rest →
  range_remove hash (length pre) rest h
  = Some ((), mkConsistentHash (nodes h) (pre ++ remove_first hash rest)).
Proof.
  induction rest as [|v rest IH]; intros pre [m r] Hr; simpl in *.
  - by subst.
  - destruct (v =? hash) eqn:Hv.
    + unfold mbind, M_bind, get_hashRing, set_hashRing. simpl. subst r.
      rewrite take_app_length. do 4 f_equal.
      rewrite cons_middle, (assoc_L (++)).
      apply drop_app_length'. rewrite length_app. simpl. lia.
    + specialize (IH (pre ++ [v]) (mkConsistentHash m r)).
      rewrite length_app, Nat.add_1_r in IH. simpl in IH.
      rewrite IH by (by rewrite <- (assoc_L (++))).
      by rewrite <- (assoc_L (++)).
Qed.

Lemma RemoveNode_run nodeID h :
  RemoveNode nodeID h = Some ((),
    match nodes h !! hashKey nodeID with
    | None => h
    | Some _ => mkConsistentHash (delete (hashKey nodeID) (nodes h))
                  (remove_first (hashKey nodeID) (hashRing h))
    end).
Proof.
  unfold RemoveNode, mbind, M_bind, get_nodes.
  destruct (nodes h !! hashKey nodeID); [|reflexivity].
  unfold set_nodes, get_hashRing.
  by rewrite (range_remove_run _ _ []).
Qed.

(** The binary search, for a predicate that reads without writing and
    is monotone on the range searched. *)
Lemma Search_loop_spec (f : nat → M bool) (p : nat → bool) h n :
  ∀ i j, n = (j - i)%nat → (i ≤ j)%nat →
  (∀ k, (i ≤ k < j)%nat → f k h = Some (p k, h)) →
  (∀ a b, (i ≤ a ≤ b)%nat → (b < j)%nat → p a = true → p b = true) →
  ∃ k, sort.Search_loop f i j h = Some (k, h) ∧ (i ≤ k ≤ j)%nat ∧
       (∀ a, (i ≤ a < k)%nat → p a = false) ∧
       (∀ a, (k ≤ a < j)%nat → p a = true).
Proof.
  induction n as [n IH] using lt_wf_ind. intros i j Hn Hij Hf Hp.
  rewrite sort.Search_loop_equation_1.
  destruct (lt_dec i j) as [Hlt|Hge].
  - pose proof (Nat.div_mod_eq (i + j) 2) as Hd.
    pose proof (Nat.mod_upper_bound (i + j) 2) as Hm.
    unfold sort.Search_loop_unfold_clause_1.
    rewrite Hf by lia.
    assert (i ≤ (i + j) / 2 < j)%nat as Hmid by lia. clear Hd Hm.
    destruct (p ((i + j) / 2)%nat) eqn:Hpm;
      unfold sort.Search_loop_unfold_clause_1_clause_1;
      set (mid := ((i + j) / 2)%nat) in *; clearbody mid.
    + destruct (IH (mid - i)%nat ltac:(lia) i mid eq_refl ltac:(lia))
        as (k & Hk & Hik & Hlo & Hhi).
      { intros k Hk. apply Hf. lia. }
      { intros a b Hab Hb. apply Hp; lia. }
      exists k. refine (conj Hk (conj _ (conj Hlo _))); [lia|].
      intros a Ha. destruct (decide (a < mid)%nat).
      * apply Hhi. lia.
      * apply (Hp mid a); [lia | lia | done].
    + destruct (IH (j - (mid + 1))%nat ltac:(lia) (mid + 1)%nat j eq_refl ltac:(lia))
        as (k & Hk & Hik & Hlo & Hhi).
      { intros k Hk. apply Hf. lia. }
      { intros a b Hab Hb. apply Hp; lia. }
      exists k. refine (conj Hk (conj _ (conj _ Hhi))); [lia|].
      intros a Ha. destruct (decide (mid < a)%nat).
      * apply Hlo. lia.
      * destruct (p a) eqn:Hpa; [|done].
        rewrite <- Hpm. symmetry. apply (Hp a mid); [lia | lia | done].
  - exists i. refine (conj eq_refl (conj _ (conj _ _))); intros; lia.
Qed.

Lemma Search_run (f : nat → M bool) (p : nat → bool) h n :
  (∀ k, (k < n)%nat → f k h = Some (p k, h)) →
  (∀ a b, (a ≤ b)%nat → (b < n)%nat → p a = true → p b = true) →
  ∃ k, sort.Search n f h = Some (k, h) ∧ (k ≤ n)%nat ∧
       (∀ a, (a < k)%nat → p a = false) ∧
       (∀ a, (k ≤ a < n)%nat → p a = true).
Proof.
  intros Hf Hp.
  destruct (Search_loop_spec f p h n 0%nat n) as (k & Hk & Hkn & Hlo & Hhi);
    [lia | lia | intros; apply Hf; lia | intros ? ? ? ?; apply Hp; lia |].
  exists k. refine (conj Hk (conj _ (conj _ Hhi))); [lia|].
  intros. apply Hlo. lia.
Qed.

End run.

(** ** Sorted slices *)

Section slices.
Implicit Types (l : list N) (x y : N).

Lemma insert_Permutation x l : sort.insert N.ltb x l ≡ₚ x :: l.
Proof.
  induction l as [|y l IH]; simpl; [done|].
  destruct (x <? y); [done|]. rewrite IH. apply Permutation_swap.
Qed.

Lemma Slice_Permutation l : sort.Slice l N.ltb ≡ₚ l.
Proof.
  unfold sort.Slice. induction l as [|x l IH]; simpl; [done|].
  by rewrite insert_Permutation, IH.
Qed.

Lemma insert_sorted x l :
  StronglySorted N.le l → StronglySorted N.le (sort.insert N.ltb x l).
Proof.
  induction 1 as [|y l Hl IH Hy]; simpl.
  - by repeat constructor.
  - destruct (N.ltb_spec x y) as [Hxy|Hxy].
    + constructor; [by constructor|].
      constructor; [lia|]. eapply Forall_impl; [exact Hy|].
      simpl. intros z Hz. lia.
    + constructor; [done|]. rewrite insert_Permutation. by constructor.
Qed.

Lemma Slice_sorted l : StronglySorted N.le (sort.Slice l N.ltb).
Proof.
  unfold sort.Slice. induction l as [|x l IH]; simpl; [constructor|].
  by apply insert_sorted.
Qed.

(** The slice [sort.Slice] returns is the only ascending arrangement
    of its argument, whatever the algorithm that finds it. *)
Lemma Slice_unique l l' :
  l' ≡ₚ l → StronglySorted N.le l' → l' = sort.Slice l N.ltb.
Proof.
  intros Hp Hs. apply (StronglySorted_unique N.le); [done | apply Slice_sorted |].
  by rewrite Slice_Permutation.
Qed.

Lemma strict_weaken l : StronglySorted N.lt l → StronglySorted N.le l.
Proof.
  induction 1 as [|y l Hl IH Hy]; constructor; [done|].
  eapply Forall_impl; [exact Hy|]. simpl. intros. lia.
Qed.

Lemma strict_NoDup l : StronglySorted N.lt l → NoDup l.
Proof.
  induction 1 as [|y l Hl IH Hy]; constructor; [|done].
  intros Hin. rewrite Forall_forall in Hy. specialize (Hy y Hin). lia.
Qed.

Lemma NoDup_strict l : StronglySorted N.le l → NoDup l → StronglySorted N.lt l.
Proof.
  induction 1 as [|y l Hl IH Hy]; intros Hnd; [constructor|].
  apply NoDup_cons in Hnd as [Hy' Hnd]. constructor; [by apply IH|].
  rewrite Forall_forall in *. intros z Hz.
  specialize (Hy z Hz). assert (z ≠ y) by (by intros ->). lia.
Qed.

(** Appending a fresh position and sorting keeps the slice strictly
    ascending: the effect of [addNode] on [hashRing]. *)
Lemma Slice_snoc_strict l x :
  StronglySorted N.lt l → x ∉ l →
  StronglySorted N.lt (sort.Slice (l ++ [x]) N.ltb).
Proof.
  intros Hl Hx. apply NoDup_strict; [apply Slice_sorted|].
  rewrite Slice_Permutation. apply NoDup_app. split_and!.
  - by apply strict_NoDup.
  - intros y Hy Hy'. apply list_elem_of_singleton in Hy' as ->. done.
  - apply NoDup_singleton.
Qed.

Lemma strict_lookup_lt l : StronglySorted N.lt l →
  ∀ a b x y, (a < b)%nat → l !! a = Some x → l !! b = Some y → x < y.
Proof.
  induction 1 as [|z l Hl IH Hz]; intros a b x y Hab Ha Hb; [done|].
  destruct b as [|b]; [lia|]. simpl in Hb.
  destruct a as [|a]; simpl in Ha.
  - injection Ha as ->. rewrite Forall_forall in Hz.
    apply Hz. by eapply list_elem_of_lookup_2.
  - apply (IH a b); [lia | done | done].
Qed.

Lemma elem_of_remove_first x y l : y ∈ remove_first x l → y ∈ l.
Proof.
  induction l as [|z l IH]; simpl; [done|].
  destruct (z =? x); [by right|].
  rewrite !elem_of_cons. intros [->|?]; [by left | right; auto].
Qed.

Lemma remove_first_notin x l : x ∉ l → remove_first x l = l.
Proof.
  induction l as [|z l IH]; simpl; [done|].
  rewrite not_elem_of_cons. intros [Hxz Hx].
  destruct (N.eqb_spec z x); [congruence|]. by rewrite IH.
Qed.

Lemma remove_first_split x l :
  x ∈ l →
  ∃ l1 l2, l = l1 ++ (x :: l2) ∧ (x ∉ l1) ∧ remove_first x l = l1 ++ l2.
Proof.
  induction l as [|z l IH]; [by intros ?%elem_of_nil|]. simpl.
  destruct (N.eqb_spec z x) as [->|Hzx].
  - intros _. exists [], l. split_and!; [done | apply not_elem_of_nil | done].
  - rewrite elem_of_cons. intros [->|Hx]; [done|].
    destruct (IH Hx) as (l1 & l2 & -> & Hl1 & ->).
    exists (z :: l1), l2. split_and!; [done | | done].
    rewrite not_elem_of_cons. split; [congruence | done].
Qed.

Lemma remove_first_Permutation x l : x ∈ l → x :: remove_first x l ≡ₚ l.
Proof.
  intros (l1 & l2 & -> & _ & ->)%remove_first_split.
  by rewrite Permutation_middle.
Qed.

Lemma remove_first_sorted (R : relation N) x l :
  StronglySorted R l → StronglySorted R (remove_first x l).
Proof.
  induction 1 as [|z l Hl IH Hz]; simpl; [constructor|].
  destruct (z =? x); [done|]. constructor; [done|].
  rewrite Forall_forall in *. intros y Hy. by apply Hz, (elem_of_remove_first x).
Qed.

Lemma elem_of_remove_first_NoDup x y l :
  NoDup l → y ∈ remove_first x l ↔ (y ∈ l ∧ y ≠ x).
Proof.
  intros Hnd. destruct (decide (x ∈ l)) as [Hx|Hx].
  - destruct (remove_first_split x l Hx) as (l1 & l2 & -> & Hl1 & ->).
    apply NoDup_app in Hnd as (_ & Hdis & [Hl2 _]%NoDup_cons).
    rewrite !elem_of_app, elem_of_cons. split.
    + intros [Hy|Hy]; (split; [tauto|]); intros ->; [done|done].
    + intros [[Hy|[->|Hy]] Hne]; [by left | done | by right].
  - rewrite remove_first_notin by done. split; [|tauto].
    intros Hy. split; [done|]. by intros ->.
Qed.

(** Sorting after appending [x] and then removing [x] gives the
    slice back. *)
Lemma remove_first_Slice_snoc l x :
  StronglySorted N.lt l → x ∉ l →
  remove_first x (sort.Slice (l ++ [x]) N.ltb) = l.
Proof.
  intros Hl Hx.
  apply (StronglySorted_unique N.le).
  - apply remove_first_sorted, Slice_sorted.
  - by apply strict_weaken.
  - apply (Permutation_cons_inv (a:=x)).
    rewrite remove_first_Permutation.
    + rewrite Slice_Permutation. symmetry. apply Permutation_cons_append.
    + rewrite Slice_Permutation. set_solver.
Qed.

End slices.

(** ** The lookup *)

Section lookup.

Lemma successor_unique ring x p p' :
  successor ring x p → successor ring x p' → p = p'.
Proof.
  intros [Hp [[H1 H2]|[H1 H2]]] [Hp' [[H1' H2']|[H1' H2']]].
  - specialize (H2 p' Hp' H1'). specialize (H2' p Hp H1). lia.
  - specialize (H1' p Hp). lia.
  - specialize (H1 p' Hp'). lia.
  - specialize (H2 p' Hp'). specialize (H2' p Hp). lia.
Qed.

Lemma successor_hit ring x : x ∈ ring → successor ring x x.
Proof. intros Hx. split; [done|]. left. split; [lia|]. auto. Qed.

Lemma GetNode_empty key h :
  hashRing h = [] → GetNode key h = Some (""%string, h).
Proof.
  intros Hr. unfold GetNode, mbind, M_bind, get_hashRing. by rewrite Hr.
Qed.

(** On a sorted ring with a position, [GetNode] reads the map at the
    successor of the hash of the key, and writes nothing. *)
Lemma GetNode_run key h :
  StronglySorted N.lt (hashRing h) → hashRing h ≠ [] →
  ∃ p, successor (hashRing h) (hashKey key) p ∧
       GetNode key h = Some (default ""%string (nodes h !! p), h).
Proof.
  intros Hs Hne. set (x := hashKey key).
  destruct h as [m r]. set (h := mkConsistentHash m r). simpl in Hs, Hne.
  change (hashRing h) with r. change (nodes h) with m.
  set (pr := λ i : nat, match r !! i with Some v => x <=? v | None => false end).
  destruct (Search_run
    (λ i, r ← get_hashRing; v ← index r i; mret (x <=? v)) pr h (length r))
    as (k & Hk & Hkn & Hlo & Hhi).
  { intros i Hi. unfold mbind, M_bind, get_hashRing, index, pr.
    change (hashRing h) with r.
    destruct (lookup_lt_is_Some_2 r i Hi) as [v Hv]. rewrite Hv. reflexivity. }
  { intros a b Hab Hb. unfold pr.
    destruct (lookup_lt_is_Some_2 r b Hb) as [vb Hvb].
    destruct (lookup_lt_is_Some_2 r a ltac:(lia)) as [va Hva].
    rewrite Hva, Hvb, !N.leb_le. intros Hx.
    destruct (decide (a = b)) as [->|Hne']; [congruence|].
    pose proof (strict_lookup_lt r Hs a b va vb ltac:(lia) Hva Hvb). lia. }
  assert (Hlen : (length r =? 0)%nat = false).
  { apply Nat.eqb_neq. destruct r; [done | simpl; lia]. }
  unfold GetNode. unfold mbind at 1. unfold M_bind at 1.
  unfold get_hashRing at 1. change (hashRing h) with r. rewrite Hlen. fold x.
  unfold mbind at 1. unfold M_bind at 1. rewrite Hk.
  unfold mbind, M_bind, get_hashRing, get_nodes, index.
  change (hashRing h) with r. change (nodes h) with m.
  destruct (Nat.eqb_spec k (length r)) as [->|Hkne].
  - (* wrap around to the first node *)
    subst h. destruct r as [|v r']; [done|]. simpl. exists v. split; [|reflexivity].
    assert (∀ q, q ∈ v :: r' → q < x) as Hall.
    { intros q [i Hi]%list_elem_of_lookup.
      specialize (Hlo i (lookup_lt_Some _ _ _ Hi)). unfold pr in Hlo.
      rewrite Hi in Hlo. apply N.leb_gt in Hlo. done. }
    split; [by left|]. right. split; [done|].
    intros q [->|Hq]%elem_of_cons; [lia|].
    apply StronglySorted_inv in Hs as [_ Hv]. rewrite Forall_forall in Hv.
    specialize (Hv q Hq). lia.
  - destruct (lookup_lt_is_Some_2 r k ltac:(lia)) as [v Hv]. rewrite Hv.
    exists v. split; [|reflexivity]. split; [by eapply list_elem_of_lookup_2|].
    left. pose proof (Hhi k ltac:(lia)) as Hxv. unfold pr in Hxv.
    rewrite Hv in Hxv. apply N.leb_le in Hxv. split; [done|].
    intros q [i Hi]%list_elem_of_lookup Hxq.
    destruct (decide (i < k)%nat) as [Hik|Hik].
    + specialize (Hlo i Hik). unfold pr in Hlo. rewrite Hi in Hlo.
      apply N.leb_gt in Hlo. lia.
    + destruct (decide (i = k)) as [->|Hik'].
      { assert (q = v) by congruence. lia. }
      pose proof (strict_lookup_lt r Hs k i v q ltac:(lia) Hv Hi). lia.
Qed.

End lookup.

(** ** The invariant *)

Section invariant.
Implicit Types (h : ConsistentHash) (p : N).

Lemma inv_elem h p : ring_inv h → p ∈ hashRing h ↔ is_Some (nodes h !! p).
Proof.
  intros [_ Hk]. by rewrite <- elem_of_dom, <- Hk, elem_of_list_to_set.
Qed.

Lemma inv_empty : ring_inv (mkConsistentHash ∅ []).
Proof. split; simpl; [constructor | by rewrite dom_empty_L]. Qed.

Lemma addNode_inv nodeID h :
  ring_inv h → ∃ h', addNode nodeID h = Some ((), h') ∧ ring_inv h'.
Proof.
  intros Hinv. rewrite addNode_run. eexists. split; [done|].
  destruct (nodes h !! hashKey nodeID) eqn:Hl; [done|].
  assert (hashKey nodeID ∉ hashRing h) as Hnotin.
  { rewrite inv_elem, Hl by done. by intros [? ?]. }
  destruct Hinv as [Hs Hk]. split; simpl.
  - by apply Slice_snoc_strict.
  - rewrite dom_insert_L, <- Hk. apply set_eq. intros p.
    rewrite elem_of_union, elem_of_singleton, !elem_of_list_to_set.
    rewrite Slice_Permutation, elem_of_app, list_elem_of_singleton. tauto.
Qed.

Lemma RemoveNode_inv nodeID h :
  ring_inv h → ∃ h', RemoveNode nodeID h = Some ((), h') ∧ ring_inv h'.
Proof.
  intros Hinv. rewrite RemoveNode_run. eexists. split; [done|].
  destruct (nodes h !! hashKey nodeID) eqn:Hl; [|done].
  destruct Hinv as [Hs Hk]. split; simpl.
  - by apply remove_first_sorted.
  - rewrite dom_delete_L, <- Hk. apply set_eq. intros p.
    rewrite elem_of_difference, elem_of_singleton, !elem_of_list_to_set.
    apply elem_of_remove_first_NoDup. by apply strict_NoDup.
Qed.

Lemma range_addNode_inv nodeIDs : ∀ h,
  ring_inv h → ∃ h', range_addNode nodeIDs h = Some ((), h') ∧ ring_inv h'.
Proof.
  induction nodeIDs as [|nodeID rest IH]; intros h Hinv; simpl.
  - by exists h.
  - destruct (addNode_inv nodeID h Hinv) as (h1 & Hrun & Hinv1).
    unfold mbind, M_bind. rewrite Hrun. by apply IH.
Qed.

Lemma New_inv nodeIDs : ∃ h, New nodeIDs = Some h ∧ ring_inv h.
Proof.
  destruct (range_addNode_inv nodeIDs _ inv_empty) as (h & Hrun & Hinv).
  exists h. unfold New. by rewrite Hrun.
Qed.

Lemma GetNode_state key h v h' :
  ring_inv h → GetNode key h = Some (v, h') → h' = h.
Proof.
  intros [Hs _]. destruct (decide (hashRing h = [])) as [He|Hne].
  - rewrite GetNode_empty by done. congruence.
  - destruct (GetNode_run key h Hs Hne) as (p & _ & ->). congruence.
Qed.

Lemma reachable_inv h : reachable h → ring_inv h.
Proof.
  induction 1 as [ids h HN | x h h' _ IH Hrun | x h h' _ IH Hrun
                 | k h v h' _ IH Hrun].
  - destruct (New_inv ids) as (h0 & HN0 & Hinv). congruence.
  - destruct (addNode_inv x h IH) as (h0 & Hrun0 & Hinv).
    unfold AddNode in Hrun. congruence.
  - destruct (RemoveNode_inv x h IH) as (h0 & Hrun0 & Hinv). congruence.
  - by rewrite (GetNode_state k h v h' IH Hrun).
Qed.

(** What [RemoveNode] does to a ring with the invariant, position by
    position. *)
Lemma RemoveNode_effect nodeID h h' :
  ring_inv h → RemoveNode nodeID h = Some ((), h') →
  ring_inv h' ∧
  (∀ y, y ∈ hashRing h' ↔ (y ∈ hashRing h ∧ y ≠ hashKey nodeID)) ∧
  (∀ y, y ≠ hashKey nodeID → nodes h' !! y = nodes h !! y).
Proof.
  intros Hinv Hrun.
  destruct (RemoveNode_inv nodeID h Hinv) as (h0 & Hrun0 & Hinv').
  assert (h0 = h') as -> by congruence. clear Hrun0.
  split; [done|]. rewrite RemoveNode_run in Hrun.
  destruct (nodes h !! hashKey nodeID) eqn:Hl; injection Hrun as <-; simpl.
  - split.
    + intros y. apply elem_of_remove_first_NoDup, strict_NoDup, Hinv.
    + intros y Hy. by apply lookup_delete_ne.
  - split; [|done]. intros y. split; [|tauto].
    intros Hy. split; [done|]. intros ->.
    apply (inv_elem _ _ Hinv) in Hy. rewrite Hl in Hy. by destruct Hy.
Qed.

(** The map [New] builds holds, at each position, the first identifier
    of the list with that hash. *)
Lemma range_addNode_nodes nodeIDs : ∀ h h' p,
  range_addNode nodeIDs h = Some ((), h') →
  nodes h' !! p = match nodes h !! p with
                  | Some v => Some v
                  | None => first_with_hash p nodeIDs
                  end.
Proof.
  induction nodeIDs as [|nodeID rest IH]; intros h h' p Hrun; simpl in Hrun.
  - injection Hrun as <-. unfold first_with_hash. simpl.
    by destruct (nodes h !! p).
  - unfold mbind, M_bind in Hrun. rewrite addNode_run in Hrun.
    rewrite (IH _ _ p Hrun). unfold first_with_hash. rewrite filter_cons.
    destruct (nodes h !! hashKey nodeID) eqn:Hl.
    + destruct (nodes h !! p) eqn:Hp; [done|].
      destruct (decide (hashKey nodeID = p)) as [<-|Hne]; [congruence | done].
    + simpl. destruct (decide (hashKey nodeID = p)) as [<-|Hne].
      * by rewrite lookup_insert_eq, Hl.
      * rewrite lookup_insert_ne by done. by destruct (nodes h !! p).
Qed.

Lemma range_addNode_fold nodeIDs : ∀ h h',
  range_addNode nodeIDs h = Some ((), h') →
  foldl (λ oh nodeID, oh ≫= exec (addNode nodeID)) (Some h) nodeIDs = Some h'.
Proof.
  induction nodeIDs as [|nodeID rest IH]; intros h h' Hrun; simpl in *.
  - by injection Hrun as <-.
  - unfold mbind at 1, M_bind at 1 in Hrun. rewrite addNode_run in Hrun.
    unfold exec at 2. rewrite addNode_run. simpl. by apply IH.
Qed.

Lemma first_with_hash_is_Some p nodeIDs :
  is_Some (first_with_hash p nodeIDs) ↔ p ∈ hashKey <$> nodeIDs.
Proof.
  unfold first_with_hash. rewrite list_elem_of_fmap. split.
  - intros [v Hv]. apply head_Some_elem_of, list_elem_of_filter in Hv as [<- Hv].
    by exists v.
  - intros (v & -> & Hv).
    destruct (filter (λ nodeID, hashKey nodeID = hashKey v) nodeIDs) eqn:Hf.
    + assert (v ∈ filter (λ nodeID, hashKey nodeID = hashKey v) nodeIDs) as Hin
        by (by apply list_elem_of_filter).
      rewrite Hf in Hin. by apply elem_of_nil in Hin.
    + by eexists.
Qed.

End invariant.

(** ** The properties of the ring *)

(** C1. On a ring that satisfies the invariant and has at least one
    position, [GetNode k] returns, without changing the ring, the
    identifier the map stores at the successor of [hashKey k]: the
    smallest position at or above the hash, or the smallest position of
    all when the hash is above every position.  A hash that is itself a
    position is its own successor. *)
Theorem GetNode_successor (h : ConsistentHash) (k : string) :
  ring_inv h → hashRing h ≠ [] →
  ∃ p nodeID,
    successor (hashRing h) (hashKey k) p ∧
    nodes h !! p = Some nodeID ∧
    GetNode k h = Some (nodeID, h) ∧
    (hashKey k ∈ hashRing h → p = hashKey k).
Proof.
  intros Hinv Hne.
  destruct (GetNode_run k h (ring_sorted h Hinv) Hne) as (p & Hsucc & Hrun).
  destruct (proj1 (inv_elem h p Hinv) (proj1 Hsucc)) as [nodeID Hid].
  exists p, nodeID. rewrite Hrun, Hid. split_and!; [done..|].
  intros Hin. by apply (successor_unique (hashRing h) (hashKey k)),
    successor_hit.
Qed.

Lemma GetNode_successor_witness :
  ring_inv ring_abc ∧ hashRing ring_abc ≠ [] ∧
  ∃ p nodeID,
    successor (hashRing ring_abc) (hashKey "user-123") p ∧
    nodes ring_abc !! p = Some nodeID ∧
    GetNode "user-123" ring_abc = Some (nodeID, ring_abc) ∧
    (hashKey "user-123" ∈ hashRing ring_abc → p = hashKey "user-123").
Proof.
  assert (ring_inv ring_abc) as Hinv.
  { split; [repeat constructor; lia | vm_compute; reflexivity]. }
  assert (hashRing ring_abc ≠ []) as Hne by discriminate.
  exact (conj Hinv (conj Hne (GetNode_successor ring_abc "user-123" Hinv Hne))).
Defined.

(** C2. On a ring with no position, whatever its map, [GetNode k]
    returns the empty string and leaves the ring as it is. *)
Theorem GetNode_empty_ring (m : gmap N string) (k : string) :
  GetNode k (mkConsistentHash m []) = Some (""%string, mkConsistentHash m []).
Proof. by apply GetNode_empty. Qed.

(** C3. Every ring reachable from [New] through [AddNode], [RemoveNode]
    and [GetNode] satisfies the invariant: [hashRing] is strictly
    ascending and its elements are exactly the keys of [nodes].  On a ring
    that satisfies the invariant [AddNode] and [RemoveNode] return, and
    the ring they leave satisfies it again. *)
Theorem ring_invariant :
  (∀ h, reachable h → ring_inv h) ∧
  (∀ h nodeID, ring_inv h →
     ∃ h', AddNode nodeID h = Some ((), h') ∧ ring_inv h') ∧
  (∀ h nodeID, ring_inv h →
     ∃ h', RemoveNode nodeID h = Some ((), h') ∧ ring_inv h').
Proof.
  split_and!.
  - apply reachable_inv.
  - intros h nodeID. apply addNode_inv.
  - intros h nodeID. apply RemoveNode_inv.
Qed.

Lemma ring_invariant_witness :
  reachable ring_ac ∧ ring_inv ring_ac.
Proof.
  assert (reachable ring_ac) as Hr.
  { apply (reachable_RemoveNode "node-b" ring_abc).
    - apply (reachable_New ["node-a"; "node-b"; "node-c"]%string).
      vm_compute. reflexivity.
    - vm_compute. reflexivity. }
  exact (conj Hr (proj1 ring_invariant ring_ac Hr)).
Defined.

(** C4. When the hash of an identifier is already a key of the map
    (on a ring with the invariant: already a position of the ring),
    [AddNode] leaves the ring exactly as it is, so the first occupant of
    the position stays.  Adding an identifier a second time changes
    nothing: the ring after the second call is the ring after the
    first, with the same number of positions. *)
Theorem AddNode_existing (h : ConsistentHash) (nodeID : string) :
  (is_Some (nodes h !! hashKey nodeID) → AddNode nodeID h = Some ((), h)) ∧
  (ring_inv h → hashKey nodeID ∈ hashRing h → AddNode nodeID h = Some ((), h)) ∧
  (∃ h1, AddNode nodeID h = Some ((), h1) ∧
         AddNode nodeID h1 = Some ((), h1)).
Proof.
  assert (∀ h0, is_Some (nodes h0 !! hashKey nodeID) →
                AddNode nodeID h0 = Some ((), h0)) as Hsome.
  { intros h0 [v Hv]. unfold AddNode. by rewrite addNode_run, Hv. }
  split_and!.
  - apply Hsome.
  - intros Hinv Hin. apply Hsome. by apply inv_elem.
  - unfold AddNode at 1. rewrite addNode_run. eexists. split; [done|].
    destruct (nodes h !! hashKey nodeID) eqn:Hl.
    + apply Hsome. by rewrite Hl.
    + apply Hsome. simpl. by rewrite lookup_insert_eq.
Qed.

Lemma AddNode_existing_witness :
  is_Some (nodes ring_plumless !! hashKey "buckeroo") ∧
  AddNode "buckeroo" ring_plumless = Some ((), ring_plumless).
Proof.
  assert (is_Some (nodes ring_plumless !! hashKey "buckeroo")) as Hs.
  { exists "plumless"%string. vm_compute. reflexivity. }
  exact (conj Hs (proj1 (AddNode_existing ring_plumless "buckeroo") Hs)).
Defined.

(** C5. [RemoveNode x] leaves the ring as it is when [hashKey x] is not
    a key of the map, so that a second removal changes nothing.  When it
    is a key, on a ring with the invariant, the entry of [hashKey x] is
    deleted from the map and the one element [hashKey x] is taken out of
    [hashRing]: the positions before it and after it stay in their
    order, strictly ascending, and [hashKey x] is no longer among
    them. *)
Theorem RemoveNode_spec (h : ConsistentHash) (nodeID : string) :
  (nodes h !! hashKey nodeID = None → RemoveNode nodeID h = Some ((), h)) ∧
  (∃ h1, RemoveNode nodeID h = Some ((), h1) ∧
         RemoveNode nodeID h1 = Some ((), h1)) ∧
  (ring_inv h → is_Some (nodes h !! hashKey nodeID) →
   ∃ h' l1 l2,
     RemoveNode nodeID h = Some ((), h') ∧
     nodes h' = delete (hashKey nodeID) (nodes h) ∧
     hashRing h = l1 ++ hashKey nodeID :: l2 ∧
     hashRing h' = l1 ++ l2 ∧
     (hashKey nodeID ∉ hashRing h') ∧
     StronglySorted N.lt (hashRing h')).
Proof.
  assert (∀ h0, nodes h0 !! hashKey nodeID = None →
                RemoveNode nodeID h0 = Some ((), h0)) as Hnone.
  { intros h0 Hl. by rewrite RemoveNode_run, Hl. }
  split_and!.
  - apply Hnone.
  - rewrite RemoveNode_run. eexists. split; [done|].
    destruct (nodes h !! hashKey nodeID) eqn:Hl.
    + apply Hnone. simpl. apply lookup_delete_eq.
    + by apply Hnone.
  - intros Hinv [v Hv]. rewrite RemoveNode_run, Hv.
    assert (hashKey nodeID ∈ hashRing h) as Hin.
    { apply inv_elem; [done|]. by rewrite Hv. }
    pose proof (ring_sorted h Hinv) as Hs.
    destruct (remove_first_split _ _ Hin) as (l1 & l2 & Hl & Hl1 & Hrm).
    eexists _, l1, l2. split; [done|]. simpl. rewrite <- Hrm.
    split_and!; [done | done | done | |].
    + rewrite elem_of_remove_first_NoDup by (by apply strict_NoDup). tauto.
    + by apply remove_first_sorted.
Qed.

Lemma RemoveNode_spec_witness :
  ring_inv ring_abc ∧ is_Some (nodes ring_abc !! hashKey "node-b") ∧
  ∃ h' l1 l2,
    RemoveNode "node-b" ring_abc = Some ((), h') ∧
    nodes h' = delete (hashKey "node-b") (nodes ring_abc) ∧
    hashRing ring_abc = l1 ++ hashKey "node-b" :: l2 ∧
    hashRing h' = l1 ++ l2 ∧
    (hashKey "node-b" ∉ hashRing h') ∧
    StronglySorted N.lt (hashRing h').
Proof.
  assert (ring_inv ring_abc) as Hinv.
  { split; [repeat constructor; lia | vm_compute; reflexivity]. }
  assert (is_Some (nodes ring_abc !! hashKey "node-b")) as Hs.
  { exists "node-b"%string. vm_compute. reflexivity. }
  exact (conj Hinv (conj Hs
    (proj2 (proj2 (RemoveNode_spec ring_abc "node-b")) Hinv Hs))).
Defined.

(** C6. [hashKey] is a function of the bytes of its argument alone: it
    reads and writes no state, and two evaluations on the same string are
    the same value.  That value is the CRC-32 checksum with the IEEE
    polynomial of the bytes of the string, and it is a 32 bit unsigned
    number. *)
Theorem hashKey_crc32 (s : string) :
  hashKey s = crc32.crc32_ieee_spec (bytes s) ∧ hashKey s < 2 ^ 32.
Proof.
  unfold hashKey. split.
  - apply crc32_facts.ChecksumIEEE_spec, crc32_facts.bytes_bound.
  - apply crc32_facts.ChecksumIEEE_uint32, crc32_facts.bytes_bound.
Qed.

(** C7. Minimal disruption.  Take a ring with the invariant, remove [B],
    and let [p] be the successor position of the key [k] before the
    removal.  When [p] is not the position of [B], [GetNode k] returns
    the same identifier after the removal as before.  So a key whose
    result changes had the position of [B] as successor; and when the ring
    has another position, such a key is served after the removal by the
    node at the clockwise neighbour of the position of [B]. *)
Theorem minimal_disruption (h h' : ConsistentHash) (B k : string) (p : N) :
  ring_inv h →
  RemoveNode B h = Some ((), h') →
  successor (hashRing h) (hashKey k) p →
  (p ≠ hashKey B →
   ∃ nodeID, GetNode k h = Some (nodeID, h) ∧ GetNode k h' = Some (nodeID, h')) ∧
  (∀ v v', GetNode k h = Some (v, h) → GetNode k h' = Some (v', h') →
           v ≠ v' → p = hashKey B) ∧
  (p = hashKey B → (∃ a, a ∈ hashRing h ∧ a ≠ hashKey B) →
   ∃ q nodeID, clockwise_next (hashRing h) (hashKey B) q ∧
               nodes h !! q = Some nodeID ∧
               GetNode k h' = Some (nodeID, h')).
Proof.
  intros Hinv Hrun Hsucc.
  destruct (RemoveNode_effect B h h' Hinv Hrun) as (Hinv' & Hring & Hnodes).
  assert (hashRing h ≠ []) as Hne.
  { destruct Hsucc as [Hp _]. intros E. rewrite E in Hp. by apply elem_of_nil in Hp. }
  destruct (GetNode_run k h (ring_sorted h Hinv) Hne) as (p0 & Hsucc0 & Hget).
  assert (p0 = p) as -> by (by eapply successor_unique).
  destruct (proj1 (inv_elem h p Hinv) (proj1 Hsucc)) as [nodeID Hid].
  rewrite Hid in Hget. simpl in Hget.
  assert (p ≠ hashKey B → GetNode k h' = Some (nodeID, h')) as Hsame.
  { intros Hp. assert (successor (hashRing h') (hashKey k) p) as Hsucc'.
    { destruct Hsucc as [Hin Hcase]. split; [by apply Hring|].
      destruct Hcase as [[H1 H2]|[H1 H2]]; [left | right]; split; try done;
        intros q Hq%Hring; [apply H2 | apply H1 | apply H2]; tauto. }
    assert (hashRing h' ≠ []) as Hne'.
    { destruct Hsucc' as [Hin _]. intros E. rewrite E in Hin.
      by apply elem_of_nil in Hin. }
    destruct (GetNode_run k h' (ring_sorted h' Hinv') Hne') as (p1 & Hsucc1 & Hget').
    assert (p1 = p) as -> by (by eapply successor_unique).
    by rewrite Hget', Hnodes, Hid. }
  split_and!.
  - intros Hp. exists nodeID. split; [done | by apply Hsame].
  - intros v v' Hv Hv' Hvv'. destruct (decide (p = hashKey B)) as [|Hp]; [done|].
    specialize (Hsame Hp). congruence.
  - intros -> (a & Ha & HaB).
    assert (hashRing h' ≠ []) as Hne'.
    { intros E. assert (a ∈ hashRing h') as Hin by (by apply Hring).
      rewrite E in Hin. by apply elem_of_nil in Hin. }
    destruct (GetNode_run k h' (ring_sorted h' Hinv') Hne') as (q & Hsucc' & Hget').
    destruct Hsucc' as [Hq Hcase']. pose proof (proj1 (Hring q) Hq) as [Hqh HqB].
    destruct (proj1 (inv_elem h q Hinv) Hqh) as [idq Hidq].
    exists q, idq. split; [|split; [done | by rewrite Hget', Hnodes, Hidq]].
    split; [done|]. split; [done|].
    destruct Hsucc as [_ [[S1 S2]|[S1 S2]]], Hcase' as [[T1 T2]|[T1 T2]].
    + left. pose proof (S2 q Hqh T1). split; [lia|].
      intros r Hr Hbr. apply T2; [apply Hring; split; [done | lia] | lia].
    + right. split.
      * intros r Hr. destruct (decide (r = hashKey B)) as [->|Hne2]; [lia|].
        assert (r ∈ hashRing h') as Hr' by (by apply Hring).
        specialize (T1 r Hr'). lia.
      * intros r Hr HrB. apply T2. by apply Hring.
    + specialize (S1 q Hqh). lia.
    + left. pose proof (S2 q Hqh). split; [lia|].
      intros r Hr Hbr. apply T2. apply Hring. split; [done | lia].
Qed.

Lemma minimal_disruption_witness :
  ring_inv ring_abc ∧
  RemoveNode "node-b" ring_abc = Some ((), ring_ac) ∧
  successor (hashRing ring_abc) (hashKey "user-123") (hashKey "node-b") ∧
  GetNode "user-123" ring_abc = Some ("node-b"%string, ring_abc) ∧
  ∃ q nodeID, clockwise_next (hashRing ring_abc) (hashKey "node-b") q ∧
              nodes ring_abc !! q = Some nodeID ∧
              GetNode "user-123" ring_ac = Some (nodeID, ring_ac).
Proof.
  assert (ring_inv ring_abc) as Hinv.
  { split; [repeat constructor; lia | vm_compute; reflexivity]. }
  assert (RemoveNode "node-b" ring_abc = Some ((), ring_ac)) as Hrun
    by (vm_compute; reflexivity).
  assert (successor (hashRing ring_abc) (hashKey "user-123") (hashKey "node-b"))
    as Hsucc.
  { replace (hashKey "user-123") with 2724751950 by (vm_compute; reflexivity).
    replace (hashKey "node-b") with 3784317969 by (vm_compute; reflexivity).
    split; [set_solver|]. left. split; [lia|].
    intros q Hq Hle. simpl in Hq. set_unfold in Hq. lia. }
  assert (GetNode "user-123" ring_abc = Some ("node-b"%string, ring_abc)) as Hget
    by (vm_compute; reflexivity).
  refine (conj Hinv (conj Hrun (conj Hsucc (conj Hget _)))).
  apply (proj2 (proj2 (minimal_disruption ring_abc ring_ac "node-b" "user-123"
                         (hashKey "node-b") Hinv Hrun Hsucc))); [reflexivity|].
  exists 2023312811. split; [set_solver|]. vm_compute. discriminate.
Defined.

(** C8. [New] returns, for every list of identifiers, the ring obtained
    from the empty ring by [addNode] on each identifier in the order of
    the list.  That ring has one position for each distinct hash among
    the identifiers, in ascending order, and its map gives each position
    to the first identifier of the list with that hash. *)
Theorem New_spec (nodeIDs : list string) :
  ∃ h, New nodeIDs = Some h ∧
       foldl (λ oh nodeID, oh ≫= exec (addNode nodeID))
             (Some (mkConsistentHash ∅ [])) nodeIDs = Some h ∧
       hashRing h = sort.Slice (remove_dups (hashKey <$> nodeIDs)) N.ltb ∧
       length (hashRing h) = length (remove_dups (hashKey <$> nodeIDs)) ∧
       ∀ p, nodes h !! p = first_with_hash p nodeIDs.
Proof.
  destruct (range_addNode_inv nodeIDs _ inv_empty) as (h & Hrun & Hinv).
  assert (∀ p, nodes h !! p = first_with_hash p nodeIDs) as Hnodes.
  { intros p. by rewrite (range_addNode_nodes _ _ _ p Hrun). }
  assert (hashRing h ≡ₚ remove_dups (hashKey <$> nodeIDs)) as Hperm.
  { apply NoDup_Permutation.
    - apply strict_NoDup, Hinv.
    - apply NoDup_remove_dups.
    - intros p. by rewrite elem_of_remove_dups, <- first_with_hash_is_Some,
        <- Hnodes, inv_elem. }
  exists h. split_and!.
  - unfold New. by rewrite Hrun.
  - by apply range_addNode_fold.
  - apply Slice_unique; [done|]. apply strict_weaken, Hinv.
  - by rewrite Hperm.
  - done.
Qed.

(** C10. On a ring with the invariant whose map has no entry at
    [hashKey x], [AddNode x] followed by [RemoveNode x] gives back the
    ring: the same map and the same sorted positions. *)
Theorem AddNode_RemoveNode_roundtrip (h : ConsistentHash) (x : string) :
  ring_inv h → nodes h !! hashKey x = None →
  ∃ h1, AddNode x h = Some ((), h1) ∧ RemoveNode x h1 = Some ((), h).
Proof.
  intros Hinv Hl. unfold AddNode. rewrite addNode_run, Hl.
  eexists. split; [done|]. rewrite RemoveNode_run. simpl.
  rewrite lookup_insert_eq, delete_insert_id by done.
  rewrite remove_first_Slice_snoc.
  - by destruct h.
  - apply Hinv.
  - rewrite inv_elem, Hl by done. by intros [? ?].
Qed.

Lemma AddNode_RemoveNode_roundtrip_witness :
  ring_inv ring_ac ∧ nodes ring_ac !! hashKey "node-b" = None ∧
  ∃ h1, AddNode "node-b" ring_ac = Some ((), h1) ∧
        RemoveNode "node-b" h1 = Some ((), ring_ac).
Proof.
  assert (ring_inv ring_ac) as Hinv.
  { split; [repeat constructor; lia | vm_compute; reflexivity]. }
  assert (nodes ring_ac !! hashKey "node-b" = None) as Hl
    by (vm_compute; reflexivity).
  exact (conj Hinv (conj Hl (AddNode_RemoveNode_roundtrip ring_ac "node-b" Hinv Hl))).
Defined.

(** ** The end-to-end scenario, evaluated *)

Example crc32_check_value : hashKey "123456789" = 0xcbf43926.
Proof. vm_compute. reflexivity. Qed.

Example New_abc : New ["node-a"; "node-b"; "node-c"]%string = Some ring_abc.
Proof. vm_compute. reflexivity. Qed.

Example GetNode_abc :
  GetNode "user-123" ring_abc = Some ("node-b"%string, ring_abc).
Proof. vm_compute. reflexivity. Qed.

Example GetNode_ac :
  GetNode "user-123" ring_ac = Some ("node-a"%string, ring_ac).
Proof. vm_compute. reflexivity. Qed.

(** Two identifiers with one checksum: the first keeps the position. *)
Example New_collision :
  New ["plumless"; "buckeroo"]%string = Some ring_plumless.
Proof. vm_compute. reflexivity. Qed.

(** [RemoveNode] goes by the position: removing ["buckeroo"] takes
    ["plumless"] off the ring. *)
Example RemoveNode_collision :
  RemoveNode "buckeroo" ring_plumless = Some ((), mkConsistentHash ∅ []).
Proof. vm_compute. reflexivity. Qed.

(** ** Further properties of the methods *)

Section safety.

(** The binary search stays within [[i, j]] and returns, whatever the
    predicate answers, as long as the predicate itself returns on the
    range and writes nothing. *)
Lemma Search_loop_bounds (f : nat → M bool) h n :
  ∀ i j, n = (j - i)%nat → (i ≤ j)%nat →
  (∀ k, (i ≤ k < j)%nat → ∃ b, f k h = Some (b, h)) →
  ∃ k, sort.Search_loop f i j h = Some (k, h) ∧ (i ≤ k ≤ j)%nat.
Proof.
  induction n as [n IH] using lt_wf_ind. intros i j Hn Hij Hf.
  rewrite sort.Search_loop_equation_1.
  destruct (lt_dec i j) as [Hlt|Hge].
  - pose proof (Nat.div_mod_eq (i + j) 2) as Hd.
    pose proof (Nat.mod_upper_bound (i + j) 2) as Hm.
    unfold sort.Search_loop_unfold_clause_1.
    assert (i ≤ (i + j) / 2 < j)%nat as Hmid by lia. clear Hd Hm.
    destruct (Hf _ Hmid) as [b Hb]. rewrite Hb.
    destruct b; unfold sort.Search_loop_unfold_clause_1_clause_1;
      set (mid := ((i + j) / 2)%nat) in *; clearbody mid.
    + destruct (IH (mid - i)%nat ltac:(lia) i mid eq_refl ltac:(lia))
        as (k & Hk & Hik).
      { intros k Hk. apply Hf. lia. }
      exists k. split; [done | lia].
    + destruct (IH (j - (mid + 1))%nat ltac:(lia) (mid + 1)%nat j eq_refl ltac:(lia))
        as (k & Hk & Hik).
      { intros k Hk. apply Hf. lia. }
      exists k. split; [done | lia].
  - exists i. split; [done | lia].
Qed.

Lemma GetNode_at_own_position h x :
  ring_inv h → nodes h !! hashKey x = Some x →
  GetNode x h = Some (x, h).
Proof.
  intros Hinv Hx.
  assert (hashKey x ∈ hashRing h) as Hin.
  { apply inv_elem; [done|]. by rewrite Hx. }
  assert (hashRing h ≠ []) as Hne.
  { intros E. rewrite E in Hin. by apply elem_of_nil in Hin. }
  destruct (GetNode_run x h (ring_sorted h Hinv) Hne) as (p & Hsucc & ->).
  rewrite (successor_unique _ _ _ _ Hsucc (successor_hit _ _ Hin)).
  by rewrite Hx.
Qed.

Lemma addNode_hashed nodeID h h' :
  nodes_hashed h → addNode nodeID h = Some ((), h') → nodes_hashed h'.
Proof.
  intros Hh. rewrite addNode_run.
  destruct (nodes h !! hashKey nodeID) eqn:Hl; intros [= <-]; [done|].
  unfold nodes_hashed. simpl. by apply map_Forall_insert_2.
Qed.

Lemma RemoveNode_hashed nodeID h h' :
  nodes_hashed h → RemoveNode nodeID h = Some ((), h') → nodes_hashed h'.
Proof.
  intros Hh. rewrite RemoveNode_run.
  destruct (nodes h !! hashKey nodeID) eqn:Hl; intros [= <-]; [|done].
  unfold nodes_hashed. simpl. by apply map_Forall_delete.
Qed.

Lemma range_addNode_hashed nodeIDs : ∀ h h',
  nodes_hashed h → range_addNode nodeIDs h = Some ((), h') → nodes_hashed h'.
Proof.
  induction nodeIDs as [|nodeID rest IH]; intros h h' Hh Hrun; simpl in Hrun.
  - by injection Hrun as <-.
  - unfold mbind, M_bind in Hrun.
    destruct (addNode nodeID h) as [[[] h1]|] eqn:Hadd; [|done].
    eapply IH; [|done]. by eapply addNode_hashed.
Qed.

Lemma reachable_hashed h : reachable h → nodes_hashed h.
Proof.
  induction 1 as [ids h HN | x h h' Hr IH Hrun | x h h' Hr IH Hrun
                 | k h v h' Hr IH Hrun].
  - unfold New in HN.
    destruct (range_addNode ids _) as [[[] h0]|] eqn:Hrun; [|done].
    injection HN as <-. eapply range_addNode_hashed; [|done].
    apply map_Forall_empty.
  - by eapply addNode_hashed.
  - by eapply RemoveNode_hashed.
  - by rewrite (GetNode_state k h v h' (reachable_inv h Hr) Hrun).
Qed.

Lemma hashKey_bound s : hashKey s < 2 ^ 32.
Proof. apply crc32_facts.ChecksumIEEE_uint32, crc32_facts.bytes_bound. Qed.

Lemma reachable_ring_abc : reachable ring_abc.
Proof.
  apply (reachable_New ["node-a"; "node-b"; "node-c"]%string).
  vm_compute. reflexivity.
Defined.

End safety.

(** X1. On every reachable ring, each entry of the map is stored at the
    hash of its own identifier. *)
Theorem reachable_nodes_hashed (h : ConsistentHash) (p : N) (nodeID : string) :
  reachable h → nodes h !! p = Some nodeID → hashKey nodeID = p.
Proof. intros Hr Hl. exact (reachable_hashed h Hr p nodeID Hl). Qed.

Lemma reachable_nodes_hashed_witness :
  reachable ring_abc ∧ nodes ring_abc !! 2526489735 = Some "node-c"%string ∧
  hashKey "node-c" = 2526489735.
Proof.
  assert (nodes ring_abc !! 2526489735 = Some "node-c"%string) as Hl
    by (vm_compute; reflexivity).
  exact (conj reachable_ring_abc (conj Hl
    (reachable_nodes_hashed ring_abc 2526489735 "node-c" reachable_ring_abc Hl))).
Defined.

(** X2. [GetNode] never panics and never writes: for every value of the
    two fields, sorted or not, consistent or not, it returns a string and
    the ring it was given. *)
Theorem GetNode_never_panics (h : ConsistentHash) (k : string) :
  ∃ v, GetNode k h = Some (v, h).
Proof.
  destruct h as [m r]. destruct (decide (r = [])) as [->|Hne].
  { exists ""%string. by apply GetNode_empty. }
  set (h := mkConsistentHash m r). set (x := hashKey k).
  destruct (Search_loop_bounds
    (λ i, r ← get_hashRing; v ← index r i; mret (x <=? v)) h (length r)
    0%nat (length r)) as (idx & Hidx & Hle); [lia | lia | |].
  { intros i Hi. unfold mbind, M_bind, get_hashRing, index.
    change (hashRing h) with r.
    destruct (lookup_lt_is_Some_2 r i ltac:(lia)) as [v Hv]. rewrite Hv.
    by eexists. }
  assert (Hlen : (length r =? 0)%nat = false).
  { apply Nat.eqb_neq. destruct r; [done | simpl; lia]. }
  unfold GetNode. unfold mbind at 1. unfold M_bind at 1.
  unfold get_hashRing at 1. change (hashRing h) with r. rewrite Hlen. fold x.
  unfold mbind at 1. unfold M_bind at 1. unfold sort.Search. rewrite Hidx.
  unfold mbind, M_bind, get_hashRing, get_nodes, index.
  change (hashRing h) with r.
  set (i := if (idx =? length r)%nat then 0%nat else idx).
  assert (i < length r)%nat as Hi.
  { unfold i. destruct (Nat.eqb_spec idx (length r)); [|lia].
    apply Nat.eqb_neq in Hlen. lia. }
  destruct (lookup_lt_is_Some_2 r i Hi) as [v Hv]. rewrite Hv.
  by eexists.
Qed.

(** X3. On a reachable ring with at least one position, the identifier
    [GetNode] returns is registered: the map holds it at its own hash,
    that hash is a position of the ring, and looking the identifier up as
    a key returns it again. *)
Theorem GetNode_registered (h : ConsistentHash) (k : string) :
  reachable h → hashRing h ≠ [] →
  ∃ v, GetNode k h = Some (v, h) ∧
       nodes h !! hashKey v = Some v ∧
       hashKey v ∈ hashRing h ∧
       GetNode v h = Some (v, h).
Proof.
  intros Hr Hne. pose proof (reachable_inv h Hr) as Hinv.
  destruct (GetNode_run k h (ring_sorted h Hinv) Hne) as (p & [Hin _] & Hrun).
  destruct (proj1 (inv_elem h p Hinv) Hin) as [v Hv].
  pose proof (reachable_hashed h Hr p v Hv) as <-.
  exists v. rewrite Hrun, Hv. split_and!; [done | done | done |].
  by apply GetNode_at_own_position.
Qed.

Lemma GetNode_registered_witness :
  reachable ring_abc ∧ hashRing ring_abc ≠ [] ∧
  ∃ v, GetNode "user-123" ring_abc = Some (v, ring_abc) ∧
       nodes ring_abc !! hashKey v = Some v ∧
       hashKey v ∈ hashRing ring_abc ∧
       GetNode v ring_abc = Some (v, ring_abc).
Proof.
  assert (hashRing ring_abc ≠ []) as Hne by discriminate.
  exact (conj reachable_ring_abc (conj Hne
    (GetNode_registered ring_abc "user-123" reachable_ring_abc Hne))).
Defined.

(** X4. The positions of a reachable ring are 32 bit unsigned numbers. *)
Theorem reachable_positions_uint32 (h : ConsistentHash) :
  reachable h → Forall (λ p, p < 2 ^ 32) (hashRing h).
Proof.
  intros Hr. apply Forall_forall. intros p Hp.
  destruct (proj1 (inv_elem h p (reachable_inv h Hr)) Hp) as [v Hv].
  rewrite <- (reachable_hashed h Hr p v Hv). apply hashKey_bound.
Qed.

Lemma reachable_positions_uint32_witness :
  reachable ring_abc ∧ Forall (λ p, p < 2 ^ 32) (hashRing ring_abc).
Proof.
  exact (conj reachable_ring_abc
    (reachable_positions_uint32 ring_abc reachable_ring_abc)).
Defined.

(** X5. On a reachable ring the slice has as many positions as the map
    has entries. *)
Theorem reachable_ring_size (h : ConsistentHash) :
  reachable h → length (hashRing h) = size (nodes h).
Proof.
  intros Hr. destruct (reachable_inv h Hr) as [Hs Hk].
  rewrite <- size_dom, <- Hk. symmetry.
  apply size_list_to_set. by apply strict_NoDup.
Qed.

Lemma reachable_ring_size_witness :
  reachable ring_abc ∧ length (hashRing ring_abc) = size (nodes ring_abc).
Proof.
  exact (conj reachable_ring_abc (reachable_ring_size ring_abc reachable_ring_abc)).
Defined.

(** ** Adding, removing and the order of calls *)

Section composition.
Implicit Types (l : list N) (x y : N).

Lemma Slice_remove_first_snoc l x :
  StronglySorted N.lt l → x ∈ l →
  sort.Slice (remove_first x l ++ [x]) N.ltb = l.
Proof.
  intros Hl Hx. symmetry. apply Slice_unique; [|by apply strict_weaken].
  rewrite <- Permutation_cons_append. symmetry.
  by apply remove_first_Permutation.
Qed.


Lemma remove_first_comm l x y :
  remove_first x (remove_first y l) = remove_first y (remove_first x l).
Proof.
  induction l as [|z l IH]; simpl; [done|].
  destruct (z =? y) eqn:Hy, (z =? x) eqn:Hx; simpl; rewrite ?Hx, ?Hy.
  - apply N.eqb_eq in Hy, Hx. by subst.
  - done.
  - done.
  - by rewrite IH.
Qed.

(** The ring [New] returns, described by the list it was made from. *)
Lemma New_shape nodeIDs :
  ∃ h, New nodeIDs = Some h ∧ ring_inv h ∧
       ∀ p, nodes h !! p = first_with_hash p nodeIDs.
Proof.
  destruct (range_addNode_inv nodeIDs _ inv_empty) as (h & Hrun & Hinv).
  exists h. split_and!; [unfold New; by rewrite Hrun | done |].
  intros p. by rewrite (range_addNode_nodes _ _ _ p Hrun).
Qed.

Lemma first_with_hash_NoDup nodeIDs nodeID :
  NoDup (hashKey <$> nodeIDs) → nodeID ∈ nodeIDs →
  first_with_hash (hashKey nodeID) nodeIDs = Some nodeID.
Proof.
  unfold first_with_hash.
  induction nodeIDs as [|a rest IH]; [by intros _ ?%elem_of_nil|].
  rewrite fmap_cons, NoDup_cons, elem_of_cons, filter_cons.
  intros [Ha Hnd] [->|Hin].
  - by rewrite decide_True.
  - rewrite decide_False; [by apply IH|].
    intros E. apply Ha. rewrite E. by apply list_elem_of_fmap_2.
Qed.


End composition.

(** X6. [AddNode x] on a ring with the invariant whose map has no entry
    at [hashKey x] puts [x] in the map at that key and the position into
    the slice, between the positions that were there, which keep their
    order.  The ring has one position more, and the key [x] is then served
    by [x]. *)
Theorem AddNode_fresh (h : ConsistentHash) (x : string) :
  ring_inv h → nodes h !! hashKey x = None →
  ∃ h' l1 l2,
    AddNode x h = Some ((), h') ∧
    nodes h' = <[hashKey x := x]> (nodes h) ∧
    hashRing h = l1 ++ l2 ∧
    hashRing h' = l1 ++ hashKey x :: l2 ∧
    length (hashRing h') = S (length (hashRing h)) ∧
    GetNode x h' = Some (x, h').
Proof.
  intros Hinv Hl.
  destruct (addNode_inv x h Hinv) as (h' & Hrun & Hinv').
  pose proof Hrun as Hrun'. rewrite addNode_run, Hl in Hrun'.
  injection Hrun' as Hh'.
  assert (hashKey x ∉ hashRing h) as Hnotin.
  { rewrite inv_elem, Hl by done. by intros [? ?]. }
  assert (hashKey x ∈ hashRing h') as Hin.
  { rewrite <- Hh'. simpl. rewrite Slice_Permutation. set_solver. }
  destruct (remove_first_split _ _ Hin) as (l1 & l2 & Hsplit & _ & Hrm).
  assert (hashRing h = l1 ++ l2) as Hold.
  { rewrite <- Hrm, <- Hh'. simpl. symmetry.
    apply remove_first_Slice_snoc; [apply Hinv | done]. }
  exists h', l1, l2. split_and!.
  - done.
  - by rewrite <- Hh'.
  - done.
  - done.
  - rewrite Hsplit, Hold, !length_app. simpl. lia.
  - apply GetNode_at_own_position; [done|].
    rewrite <- Hh'. simpl. apply lookup_insert_eq.
Qed.

Lemma AddNode_fresh_witness :
  ring_inv ring_ac ∧ nodes ring_ac !! hashKey "node-b" = None ∧
  ∃ h' l1 l2,
    AddNode "node-b" ring_ac = Some ((), h') ∧
    nodes h' = <[hashKey "node-b" := "node-b"%string]> (nodes ring_ac) ∧
    hashRing ring_ac = l1 ++ l2 ∧
    hashRing h' = l1 ++ hashKey "node-b" :: l2 ∧
    length (hashRing h') = S (length (hashRing ring_ac)) ∧
    GetNode "node-b" h' = Some ("node-b"%string, h').
Proof.
  assert (ring_inv ring_ac) as Hinv.
  { split; [repeat constructor; lia | vm_compute; reflexivity]. }
  assert (nodes ring_ac !! hashKey "node-b" = None) as Hl
    by (vm_compute; reflexivity).
  exact (conj Hinv (conj Hl (AddNode_fresh ring_ac "node-b" Hinv Hl))).
Defined.

(** X7. Adding a node moves keys only to the new node: on a ring with
    the invariant, the identifier [GetNode k] returns after [AddNode x]
    is the one it returned before, or [x]. *)
Theorem AddNode_moves_keys_to_new_node
    (h h' : ConsistentHash) (x k v v' : string) :
  ring_inv h →
  AddNode x h = Some ((), h') →
  GetNode k h = Some (v, h) →
  GetNode k h' = Some (v', h') →
  v' = v ∨ v' = x.
Proof.
  intros Hinv Hrun Hget Hget'.
  destruct (addNode_inv x h Hinv) as (h0 & Hrun0 & Hinv').
  unfold AddNode in Hrun. assert (h0 = h') as -> by congruence. clear Hrun0.
  rewrite addNode_run in Hrun.
  destruct (nodes h !! hashKey x) eqn:Hl; injection Hrun as Hh'.
  { subst h'. left. congruence. }
  assert (∀ q, q ∈ hashRing h' ↔ (q ∈ hashRing h ∨ q = hashKey x)) as Hring.
  { intros q. rewrite <- Hh'. simpl.
    by rewrite Slice_Permutation, elem_of_app, list_elem_of_singleton. }
  assert (hashRing h' ≠ []) as Hne'.
  { intros E. pose proof (proj2 (Hring (hashKey x)) (or_intror eq_refl)) as Hin.
    rewrite E in Hin. by apply elem_of_nil in Hin. }
  destruct (GetNode_run k h' (ring_sorted h' Hinv') Hne') as (p' & Hsucc' & Hg').
  rewrite Hg' in Hget'. injection Hget' as <-.
  destruct (decide (p' = hashKey x)) as [->|Hp'].
  { right. rewrite <- Hh'. simpl. by rewrite lookup_insert_eq. }
  left. destruct Hsucc' as [Hin' Hcase].
  assert (p' ∈ hashRing h) as Hin by (apply Hring in Hin'; tauto).
  assert (successor (hashRing h) (hashKey k) p') as Hsucc.
  { split; [done|].
    destruct Hcase as [[H1 H2]|[H1 H2]]; [left | right]; split; try done;
      intros q Hq; [apply H2 | apply H1 | apply H2]; apply Hring; tauto. }
  assert (hashRing h ≠ []) as Hne.
  { intros E. rewrite E in Hin. by apply elem_of_nil in Hin. }
  destruct (GetNode_run k h (ring_sorted h Hinv) Hne) as (p & Hsucc0 & Hg).
  rewrite Hg in Hget. injection Hget as <-.
  rewrite (successor_unique _ _ _ _ Hsucc0 Hsucc).
  rewrite <- Hh'. simpl. by rewrite lookup_insert_ne.
Qed.

Lemma AddNode_moves_keys_to_new_node_witness :
  ring_inv ring_ac ∧
  AddNode "node-b" ring_ac = Some ((), ring_abc) ∧
  GetNode "user-123" ring_ac = Some ("node-a"%string, ring_ac) ∧
  GetNode "user-123" ring_abc = Some ("node-b"%string, ring_abc) ∧
  ("node-b"%string = "node-a"%string ∨ "node-b"%string = "node-b"%string).
Proof.
  assert (ring_inv ring_ac) as Hinv.
  { split; [repeat constructor; lia | vm_compute; reflexivity]. }
  assert (AddNode "node-b" ring_ac = Some ((), ring_abc)) as Hrun
    by (vm_compute; reflexivity).
  assert (GetNode "user-123" ring_ac = Some ("node-a"%string, ring_ac)) as Hg
    by (vm_compute; reflexivity).
  assert (GetNode "user-123" ring_abc = Some ("node-b"%string, ring_abc)) as Hg'
    by (vm_compute; reflexivity).
  exact (conj Hinv (conj Hrun (conj Hg (conj Hg'
    (AddNode_moves_keys_to_new_node ring_ac ring_abc "node-b" "user-123"
       "node-a" "node-b" Hinv Hrun Hg Hg'))))).
Defined.

(** X8. [RemoveNode x] followed by [AddNode x], on a ring with the
    invariant that has the position [hashKey x], keeps the positions and
    hands the position [hashKey x] to [x]; when [x] was its occupant the
    ring is the same as before. *)
Theorem RemoveNode_AddNode (h : ConsistentHash) (x : string) :
  ring_inv h → is_Some (nodes h !! hashKey x) →
  ∃ h1, RemoveNode x h = Some ((), h1) ∧
        AddNode x h1 =
          Some ((), mkConsistentHash (<[hashKey x := x]> (nodes h)) (hashRing h)) ∧
        (nodes h !! hashKey x = Some x → AddNode x h1 = Some ((), h)).
Proof.
  intros Hinv [v Hv].
  assert (hashKey x ∈ hashRing h) as Hin.
  { apply inv_elem; [done|]. by rewrite Hv. }
  rewrite RemoveNode_run, Hv. eexists. split; [done|].
  unfold AddNode. rewrite addNode_run. simpl.
  rewrite lookup_delete_eq, insert_delete_eq.
  rewrite Slice_remove_first_snoc by (done || apply Hinv).
  split; [done|]. intros [= ->]. rewrite insert_id by done. by destruct h.
Qed.

Lemma RemoveNode_AddNode_witness :
  ring_inv ring_plumless ∧ is_Some (nodes ring_plumless !! hashKey "buckeroo") ∧
  ∃ h1, RemoveNode "buckeroo" ring_plumless = Some ((), h1) ∧
        AddNode "buckeroo" h1 =
          Some ((), mkConsistentHash
                      (<[hashKey "buckeroo" := "buckeroo"%string]>
                         (nodes ring_plumless))
                      (hashRing ring_plumless)) ∧
        (nodes ring_plumless !! hashKey "buckeroo" = Some "buckeroo"%string →
         AddNode "buckeroo" h1 = Some ((), ring_plumless)).
Proof.
  assert (ring_inv ring_plumless) as Hinv.
  { split; [repeat constructor | vm_compute; reflexivity]. }
  assert (is_Some (nodes ring_plumless !! hashKey "buckeroo")) as Hs.
  { exists "plumless"%string. vm_compute. reflexivity. }
  exact (conj Hinv (conj Hs (RemoveNode_AddNode ring_plumless "buckeroo" Hinv Hs))).
Defined.



(** X10. Two [RemoveNode] calls give the same ring in either order, from
    every state and for every pair of identifiers. *)
Theorem RemoveNode_comm (h : ConsistentHash) (x y : string) :
  ∃ h1 h2 h',
    RemoveNode x h = Some ((), h1) ∧ RemoveNode y h1 = Some ((), h') ∧
    RemoveNode y h = Some ((), h2) ∧ RemoveNode x h2 = Some ((), h').
Proof.
  do 3 eexists.
  split; [apply RemoveNode_run|]. split; [apply RemoveNode_run|].
  split; [apply RemoveNode_run|]. rewrite RemoveNode_run. do 2 f_equal.
  destruct (decide (hashKey x = hashKey y)) as [E|Hxy].
  { rewrite E. by destruct (nodes h !! hashKey y). }
  destruct (nodes h !! hashKey x) eqn:Hx, (nodes h !! hashKey y) eqn:Hy; simpl;
    rewrite ?lookup_delete_ne, ?Hx, ?Hy by done; simpl; try done.
  by rewrite delete_delete, remove_first_comm.
Qed.



(** X12. The positions of the ring [New] returns do not depend on the
    order of the identifiers; when no two identifiers of the list have
    the same hash, the whole ring does not. *)
Theorem New_Permutation (nodeIDs nodeIDs' : list string) :
  nodeIDs ≡ₚ nodeIDs' →
  ∃ h h', New nodeIDs = Some h ∧ New nodeIDs' = Some h' ∧
          hashRing h = hashRing h' ∧
          (NoDup (hashKey <$> nodeIDs) → h = h').
Proof.
  intros Hperm.
  destruct (New_shape nodeIDs) as (h & HN & Hinv & Hnodes).
  destruct (New_shape nodeIDs') as (h' & HN' & Hinv' & Hnodes').
  exists h, h'. split; [done|]. split; [done|].
  assert (hashRing h = hashRing h') as Hring.
  { apply (StronglySorted_unique N.le);
      [apply strict_weaken, Hinv | apply strict_weaken, Hinv' |].
    apply NoDup_Permutation; [apply strict_NoDup, Hinv | apply strict_NoDup, Hinv' |].
    intros p. rewrite !inv_elem, Hnodes, Hnodes', !first_with_hash_is_Some by done.
    by rewrite Hperm. }
  split; [done|]. intros Hnd.
  assert (nodes h = nodes h') as Hmap.
  { apply map_eq. intros p. rewrite Hnodes, Hnodes'.
    destruct (decide (p ∈ hashKey <$> nodeIDs)) as [Hp|Hp].
    - apply list_elem_of_fmap in Hp as (nodeID & -> & Hin).
      rewrite first_with_hash_NoDup by done.
      rewrite first_with_hash_NoDup; [done | by rewrite <- Hperm | by rewrite <- Hperm].
    - destruct (first_with_hash p nodeIDs) eqn:E1.
      { exfalso. apply Hp, first_with_hash_is_Some. by rewrite E1. }
      destruct (first_with_hash p nodeIDs') eqn:E2; [|done].
      exfalso. apply Hp. rewrite Hperm. apply first_with_hash_is_Some.
      by rewrite E2. }
  destruct h, h'. simpl in *. by subst.
Qed.

Lemma New_Permutation_witness :
  ["node-a"; "node-b"; "node-c"]%string ≡ₚ ["node-c"; "node-a"; "node-b"]%string ∧
  ∃ h h', New ["node-a"; "node-b"; "node-c"]%string = Some h ∧
          New ["node-c"; "node-a"; "node-b"]%string = Some h' ∧
          hashRing h = hashRing h' ∧
          (NoDup (hashKey <$> ["node-a"; "node-b"; "node-c"]%string) → h = h').
Proof.
  assert (["node-a"; "node-b"; "node-c"]%string
          ≡ₚ ["node-c"; "node-a"; "node-b"]%string) as Hperm.
  { symmetry. apply (Permutation_cons_append ["node-a"; "node-b"]%string). }
  exact (conj Hperm (New_Permutation _ _ Hperm)).
Defined.

(** X13. A removed identifier is not returned any more: on a reachable
    ring, after [RemoveNode x], [GetNode] on a ring that still has a
    position returns an identifier other than [x]. *)
Theorem RemoveNode_not_returned (h h' : ConsistentHash) (x k v : string) :
  reachable h →
  RemoveNode x h = Some ((), h') →
  hashRing h' ≠ [] →
  GetNode k h' = Some (v, h') →
  v ≠ x.
Proof.
  intros Hr Hrun Hne Hget ->.
  pose proof (reachable_RemoveNode x h h' Hr Hrun) as Hr'.
  pose proof (reachable_inv h' Hr') as Hinv'.
  destruct (GetNode_run k h' (ring_sorted h' Hinv') Hne) as (p & [Hin _] & Hg).
  destruct (proj1 (inv_elem h' p Hinv') Hin) as [w Hw].
  rewrite Hg, Hw in Hget. simpl in Hget. injection Hget as ->.
  pose proof (reachable_hashed h' Hr' p x Hw) as <-.
  rewrite RemoveNode_run in Hrun.
  destruct (nodes h !! hashKey x) eqn:Hl; injection Hrun as <-; simpl in Hw.
  - by rewrite lookup_delete_eq in Hw.
  - congruence.
Qed.

Lemma RemoveNode_not_returned_witness :
  reachable ring_abc ∧
  RemoveNode "node-b" ring_abc = Some ((), ring_ac) ∧
  hashRing ring_ac ≠ [] ∧
  GetNode "user-123" ring_ac = Some ("node-a"%string, ring_ac) ∧
  "node-a"%string ≠ "node-b"%string.
Proof.
  assert (RemoveNode "node-b" ring_abc = Some ((), ring_ac)) as Hrun
    by (vm_compute; reflexivity).
  assert (hashRing ring_ac ≠ []) as Hne by discriminate.
  assert (GetNode "user-123" ring_ac = Some ("node-a"%string, ring_ac)) as Hg
    by (vm_compute; reflexivity).
  exact (conj reachable_ring_abc (conj Hrun (conj Hne (conj Hg
    (RemoveNode_not_returned ring_abc ring_ac "node-b" "user-123" "node-a"
       reachable_ring_abc Hrun Hne Hg))))).
Defined.

(** X14. The empty string signals an empty ring without ambiguity as
    long as the empty string is not itself a node: on a reachable ring
    whose map has no entry at the hash of the empty string, [GetNode]
    returns the empty string exactly when the ring has no position. *)
Theorem GetNode_sentinel (h : ConsistentHash) (k : string) :
  reachable h → nodes h !! hashKey "" = None →
  GetNode k h = Some (""%string, h) ↔ hashRing h = [].
Proof.
  intros Hr Hnone. split; [|apply GetNode_empty].
  intros Hget. destruct (decide (hashRing h = [])) as [|Hne]; [done|].
  exfalso. pose proof (reachable_inv h Hr) as Hinv.
  destruct (GetNode_run k h (ring_sorted h Hinv) Hne) as (p & [Hin _] & Hg).
  destruct (proj1 (inv_elem h p Hinv) Hin) as [w Hw].
  rewrite Hg, Hw in Hget. simpl in Hget. injection Hget as ->.
  pose proof (reachable_hashed h Hr p ""%string Hw) as <-. congruence.
Qed.

Lemma GetNode_sentinel_witness :
  reachable ring_abc ∧ nodes ring_abc !! hashKey "" = None ∧
  (GetNode "user-123" ring_abc = Some (""%string, ring_abc)
   ↔ hashRing ring_abc = []).
Proof.
  assert (nodes ring_abc !! hashKey "" = None) as Hnone
    by (vm_compute; reflexivity).
  exact (conj reachable_ring_abc (conj Hnone
    (GetNode_sentinel ring_abc "user-123" reachable_ring_abc Hnone))).
Defined.
